(** * Voxa: a model of [Voxa.py]

    The program is a PyQt5 window around three remote calls
    ([current_user_recently_played], [current_playback], [requests.get]),
    one SQLite table and a voice thread.  Each Python function is embedded
    as a computation that returns a value or raises, together with the
    effects it performed in order (console lines, [logging.error] records,
    remote calls, Qt signal emissions). *)

From Stdlib Require Import List String Ascii ZArith QArith Bool Lia.
From Stdlib.Strings Require Import Byte.
From Stdlib Require Import DecimalString.
Import ListNotations.
Open Scope string_scope.
Open Scope list_scope.
Open Scope Z_scope.
Set Warnings "-register-all".

(** ** Python values

    What [json.loads] hands back to the program: the payloads of the
    Spotify web API as spotipy returns them.  A dictionary is kept as the
    list of its items; a key is looked up from the front. *)

Inductive json : Type :=
| JNone
| JBool (b : bool)
| JInt (z : Z)
| JFloat (q : Q)
| JStr (s : string)
| JList (l : list json)
| JDict (d : list (string * json)).

(** ** Exceptions

    The classes the program can meet.  [KeyboardInterrupt] and
    [SystemExit] stand beside [Exception], directly below
    [BaseException]: an [except Exception] clause does not catch them.
    [bases] lists the direct base classes as Python, requests and spotipy
    declare them. *)

Inductive pyclass : Type :=
| BaseException
| KeyboardInterrupt
| SystemExit
| Exception
| LookupError
| KeyError
| IndexError
| TypeError
| ValueError
| OSError
| RequestException
| HTTPError
| ConnectionError
| Timeout
| MissingSchema
| InvalidURL
| SpotifyException.

Definition bases (c : pyclass) : list pyclass :=
  match c with
  | BaseException => []
  | KeyboardInterrupt => [BaseException]
  | SystemExit => [BaseException]
  | Exception => [BaseException]
  | LookupError => [Exception]
  | KeyError => [LookupError]
  | IndexError => [LookupError]
  | TypeError => [Exception]
  | ValueError => [Exception]
  | OSError => [Exception]
  | RequestException => [OSError]
  | HTTPError => [RequestException]
  | ConnectionError => [RequestException]
  | Timeout => [RequestException]
  | MissingSchema => [RequestException; ValueError]
  | InvalidURL => [RequestException; ValueError]
  | SpotifyException => [Exception]
  end.

Definition pyclass_eqb (c d : pyclass) : bool :=
  match c, d with
  | BaseException, BaseException | KeyboardInterrupt, KeyboardInterrupt
  | SystemExit, SystemExit
  | Exception, Exception | LookupError, LookupError | KeyError, KeyError
  | IndexError, IndexError | TypeError, TypeError | ValueError, ValueError
  | OSError, OSError | RequestException, RequestException
  | HTTPError, HTTPError | ConnectionError, ConnectionError
  | Timeout, Timeout | MissingSchema, MissingSchema
  | InvalidURL, InvalidURL | SpotifyException, SpotifyException => true
  | _, _ => false
  end.

(** [c] is [d] or reaches it through at most [n] base-class steps. *)
Fixpoint subclass_within (n : nat) (c d : pyclass) : bool :=
  pyclass_eqb c d
  || match n with
     | O => false
     | S n' => existsb (fun b => subclass_within n' b d) (bases c)
     end.

(** The hierarchy above is four levels deep. *)
Definition issubclass (c d : pyclass) : bool := subclass_within 4 c d.

Record exn : Type := mkExn { exn_class : pyclass; exn_msg : string }.

Definition isinstance (e : exn) (c : pyclass) : bool :=
  issubclass (exn_class e) c.

(** ** Results and effects *)

Inductive outcome (A : Type) : Type :=
| Return (a : A)
| Raise (e : exn).
Arguments Return {A} a.
Arguments Raise {A} e.

(** A piece of an f-string: literal text, or a value or an exception
    interpolated with [{...}]. *)
Inductive frag : Type :=
| Lit (s : string)
| Val (v : json)
| Exc (e : exn).

Inductive remote_call : Type :=
| RecentlyPlayed (limit : Z)
| CurrentPlayback
| HttpGet (url : json).

Inductive effect : Type :=
| Print (line : list frag)
| LogError (line : list frag)
| Remote (c : remote_call)
| EmitVoiceDetected (command : string).

(** A run of a Python function: how it ended and what it did on the way. *)
Definition M (A : Type) : Type := (outcome A * list effect)%type.

Definition ret {A} (a : A) : M A := (Return a, []).

Definition perform (x : effect) : M unit := (Return tt, [x]).

Definition lift {A} (o : outcome A) : M A := (o, []).

Definition bind {A B} (m : M A) (k : A -> M B) : M B :=
  match m with
  | (Return a, t) => let (r, t') := k a in (r, t ++ t')
  | (Raise e, t) => (Raise e, t)
  end.

(** [try: body / except cls as e: handler e] *)
Definition try_except {A} (body : M A) (cls : pyclass) (handler : exn -> M A)
  : M A :=
  match body with
  | (Return a, t) => (Return a, t)
  | (Raise e, t) =>
      if isinstance e cls
      then let (r, t') := handler e in (r, t ++ t')
      else (Raise e, t)
  end.

Declare Scope py_scope.
Delimit Scope py_scope with py.
Notation "x <- m ;; k" := (bind m (fun x => k))
  (at level 61, m at next level, right associativity) : py_scope.
Notation "m ;;; k" := (bind m (fun _ => k))
  (at level 61, right associativity) : py_scope.
Open Scope py_scope.

(** The same sequencing for code that has no effect but may raise. *)
Definition obind {A B} (o : outcome A) (k : A -> outcome B) : outcome B :=
  match o with
  | Return a => k a
  | Raise e => Raise e
  end.

Fixpoint omap {A B} (f : A -> outcome B) (l : list A) : outcome (list B) :=
  match l with
  | [] => Return []
  | x :: l' =>
      obind (f x) (fun y => obind (omap f l') (fun ys => Return (y :: ys)))
  end.

(** ** Operations on Python values *)

Definition type_name (v : json) : string :=
  match v with
  | JNone => "NoneType"
  | JBool _ => "bool"
  | JInt _ => "int"
  | JFloat _ => "float"
  | JStr _ => "str"
  | JList _ => "list"
  | JDict _ => "dict"
  end.

(** [bool(v)] *)
Definition truthy (v : json) : bool :=
  match v with
  | JNone => false
  | JBool b => b
  | JInt z => negb (z =? 0)
  | JFloat q => negb (Qeq_bool q 0)
  | JStr s => negb (String.eqb s "")
  | JList l => match l with [] => false | _ => true end
  | JDict d => match d with [] => false | _ => true end
  end.

Fixpoint dict_get (k : string) (d : list (string * json)) : option json :=
  match d with
  | [] => None
  | (k', v) :: d' => if String.eqb k k' then Some v else dict_get k d'
  end.

(** [v[k]] for a string key [k] *)
Definition getitem (v : json) (k : string) : outcome json :=
  match v with
  | JDict d =>
      match dict_get k d with
      | Some x => Return x
      | None => Raise (mkExn KeyError k)
      end
  | JList _ =>
      Raise (mkExn TypeError "list indices must be integers or slices, not str")
  | JStr _ => Raise (mkExn TypeError "string indices must be integers")
  | _ =>
      Raise (mkExn TypeError ("'" ++ type_name v ++ "' object is not subscriptable")%string)
  end.

(** [v[0]] *)
Definition getitem0 (v : json) : outcome json :=
  match v with
  | JList (x :: _) => Return x
  | JList [] => Raise (mkExn IndexError "list index out of range")
  | JStr (String c _) => Return (JStr (String c ""))
  | JStr EmptyString => Raise (mkExn IndexError "string index out of range")
  | JDict _ => Raise (mkExn KeyError "0")
  | _ =>
      Raise (mkExn TypeError ("'" ++ type_name v ++ "' object is not subscriptable")%string)
  end.

Fixpoint chars (s : string) : list json :=
  match s with
  | EmptyString => []
  | String c s' => JStr (String c "") :: chars s'
  end.

(** The items a [for] loop over [v] visits. *)
Definition iterate (v : json) : outcome (list json) :=
  match v with
  | JList l => Return l
  | JDict d => Return (map (fun kv => JStr (fst kv)) d)
  | JStr s => Return (chars s)
  | _ => Raise (mkExn TypeError ("'" ++ type_name v ++ "' object is not iterable")%string)
  end.

Definition eq_str (k : string) (v : json) : bool :=
  match v with
  | JStr s => String.eqb s k
  | _ => false
  end.

Fixpoint is_substring (k s : string) : bool :=
  prefix k s
  || match s with
     | EmptyString => false
     | String _ s' => is_substring k s'
     end.

(** [k in v] for a string [k] *)
Definition contains (k : string) (v : json) : outcome bool :=
  match v with
  | JDict d => Return (existsb (fun kv => String.eqb (fst kv) k) d)
  | JList l => Return (existsb (eq_str k) l)
  | JStr s => Return (is_substring k s)
  | _ =>
      Raise (mkExn TypeError ("argument of type '" ++ type_name v ++ "' is not iterable")%string)
  end.

(** ** The collaborators: requests, Qt, SQLite *)

(** What the program reads of a [requests.Response]. *)
Record Response : Type := mkResponse {
  status_code : Z;
  reason : string;
  url : string;
  content : list byte
}.

Definition decimal (z : Z) : string :=
  DecimalString.NilZero.string_of_int (Z.to_int z).

(** [Response.raise_for_status] of requests: an [HTTPError] for the
    statuses 400 to 599. *)
Definition raise_for_status (r : Response) : outcome unit :=
  if (400 <=? status_code r) && (status_code r <? 500) then
    Raise (mkExn HTTPError
             (decimal (status_code r) ++ " Client Error: " ++ reason r
              ++ " for url: " ++ url r)%string)
  else if (500 <=? status_code r) && (status_code r <? 600) then
    Raise (mkExn HTTPError
             (decimal (status_code r) ++ " Server Error: " ++ reason r
              ++ " for url: " ++ url r)%string)
  else Return tt.

(** A [QPixmap]: null, or holding image data. *)
Inductive QPixmap : Type :=
| NullPixmap
| Pixmap (data : list byte).

(** [p = QPixmap(); p.loadFromData(data)]: Qt keeps the data when it can
    decode them and leaves the pixmap null when it cannot. *)
Definition loadFromData (decodable : list byte -> bool) (data : list byte)
  : QPixmap :=
  if decodable data then Pixmap data else NullPixmap.

(** A row of [songs (name TEXT, artist TEXT, file_path TEXT)]; a column
    declared without [NOT NULL] may hold [NULL]. *)
Record song : Type := mkSong {
  name : option string;
  artist : option string;
  file_path : option string
}.

(** The file [offline_songs.db]: the [songs] table when it exists, as the
    rows it holds in insertion order.  The schema declares no key and no
    [UNIQUE] constraint, so any list of rows is a table. *)
Record database : Type := mkDatabase { songs : option (list song) }.

(** [CREATE TABLE IF NOT EXISTS songs (...)] *)
Definition create_songs_table (d : database) : database :=
  match songs d with
  | Some _ => d
  | None => mkDatabase (Some [])
  end.

Definition songs_rows (d : database) : list song :=
  match songs d with
  | Some rows => rows
  | None => []
  end.

(** ** [MusicApp] *)

(** [item['track']['album']['images'][0]['url']] *)
Definition album_image_url (item : json) : outcome json :=
  obind (getitem item "track") (fun track =>
  obind (getitem track "album") (fun album =>
  obind (getitem album "images") (fun images =>
  obind (getitem0 images) (fun image =>
  getitem image "url")))).

Definition fetch_albums (current_user_recently_played : Z -> outcome json)
  : M (list json) :=
  try_except
    (perform (Remote (RecentlyPlayed 5)) ;;;
     results <- lift (current_user_recently_played 5) ;;
     lift (obind (getitem results "items") (fun items =>
           obind (iterate items) (omap album_image_url))))
    Exception
    (fun e =>
       perform (LogError [Lit "Error fetching albums: "; Exc e]) ;;;
       ret []).

Definition get_pixmap (decodable : list byte -> bool)
    (requests_get : json -> outcome Response) (url : json) : M QPixmap :=
  try_except
    (perform (Remote (HttpGet url)) ;;;
     response <- lift (requests_get url) ;;
     lift (raise_for_status response) ;;;
     ret (loadFromData decodable (content response)))
    RequestException
    (fun e =>
       perform (LogError [Lit "Error fetching album cover: "; Exc e]) ;;;
       ret NullPixmap).

(** [playback] is what [sp.current_playback()] does at this call. *)
Definition update_playing_album (playback : outcome json) : M unit :=
  try_except
    (perform (Remote CurrentPlayback) ;;;
     current_track <- lift playback ;;
     if truthy current_track then
       has_item <- lift (contains "item" current_track) ;;
       if has_item : bool then
         song_name <- lift (obind (getitem current_track "item") (fun item =>
                            getitem item "name")) ;;
         artist_name <- lift (obind (getitem current_track "item") (fun item =>
                              obind (getitem item "artists") (fun artists =>
                              obind (getitem0 artists) (fun first =>
                              getitem first "name")))) ;;
         perform (Print [Lit "Currently playing: "; Val song_name;
                         Lit " by "; Val artist_name])
       else ret tt
     else ret tt)
    Exception
    (fun e =>
       perform (LogError [Lit "Error updating playing album: "; Exc e]) ;;;
       ret tt).

Definition open_settings : M unit :=
  perform (Print [Lit "Opening settings..."]).

Definition process_command (command : string) : M unit :=
  perform (Print [Lit "Recognized command: "; Val (JStr command)]).

(** [file_name] is the path the file dialog returned, empty when it was
    cancelled. *)
Definition import_background (file_name : string) : M unit :=
  if truthy (JStr file_name)
  then perform (Print [Lit "Background image set to "; Val (JStr file_name)])
  else ret tt.

(** ** [VoiceRecognitionThread] *)

Definition run : M unit :=
  perform (Print [Lit "Voice recognition running in background"]).

(** ** The running program *)

(** The outside world at start-up: the Spotify session, the web (the
    [i]-th cover request may be answered differently from the others) and
    Qt's image decoder. *)
Record world : Type := mkWorld {
  current_user_recently_played : Z -> outcome json;
  requests_get : nat -> json -> outcome Response;
  decodable : list byte -> bool
}.

Inductive thread_state : Type :=
| Started
| Finished.

Record MusicApp : Type := mkMusicApp {
  albums : list json;
  album_labels : list QPixmap;
  timer_active : bool;
  voice_thread : thread_state
}.

Record state : Type := mkState {
  db : database;
  window : MusicApp
}.

(** The loop [for album_url in self.albums] of [__init__]. *)
Fixpoint load_covers (w : world) (i : nat) (urls : list json)
  : M (list QPixmap) :=
  match urls with
  | [] => ret []
  | album_url :: rest =>
      pixmap <- get_pixmap (decodable w) (requests_get w i) album_url ;;
      labels <- load_covers w (S i) rest ;;
      ret (pixmap :: labels)
  end.

(** [MusicApp.__init__]: the covers, the widgets (which have no effect
    outside the window), the five-second timer and the voice thread. *)
Definition MusicApp_init (w : world) : M MusicApp :=
  urls <- fetch_albums (current_user_recently_played w) ;;
  labels <- load_covers w 0 urls ;;
  ret (mkMusicApp urls labels true Started).

(** What Qt's event loop hands to the program.  Each event stands for the
    signal the slot was connected to in [__init__]; an event that needs an
    answer from outside carries it. *)
Inductive event : Type :=
| TimerTimeout (playback : outcome json)
| SettingsClicked
| CustomBgClicked (file_name : string)
| VoiceThreadScheduled.

Definition dispatch (st : state) (ev : event) : M state :=
  match ev with
  | TimerTimeout playback =>
      if timer_active (window st)
      then update_playing_album playback ;;; ret st
      else ret st
  | SettingsClicked => open_settings ;;; ret st
  | CustomBgClicked file_name => import_background file_name ;;; ret st
  | VoiceThreadScheduled =>
      match voice_thread (window st) with
      | Started =>
          run ;;;
          ret (mkState (db st)
                 (mkMusicApp (albums (window st)) (album_labels (window st))
                    (timer_active (window st)) Finished))
      | Finished => ret st
      end
  end.

(** [voice_detected] is connected to [process_command]: every emission
    found in [t] is delivered to that slot. *)
Fixpoint deliver_signals (t : list effect) : M unit :=
  match t with
  | [] => ret tt
  | EmitVoiceDetected command :: t' =>
      process_command command ;;; deliver_signals t'
  | _ :: t' => deliver_signals t'
  end.

Definition step (st : state) (ev : event) : M state :=
  let handled := dispatch st ev in
  st' <- handled ;;
  deliver_signals (snd handled) ;;;
  ret st'.

(** [app.exec_()] over the events that arrive. *)
Fixpoint exec_ (st : state) (events : list event) : M state :=
  match events with
  | [] => ret st
  | ev :: rest => st' <- step st ev ;; exec_ st' rest
  end.

(** The module from top to bottom: create the table, build the window,
    run the event loop.  The statements of lines 43 to 60 (logging, the
    Spotify client, the database connection, the [CREATE TABLE]) are
    taken to succeed: a run in which one of them raises ends there,
    before the window exists.  An exception that leaves [__init__] or a
    slot ends the run. *)
Definition program (w : world) (db0 : database) (events : list event)
  : M state :=
  let db1 := create_songs_table db0 in
  window <- MusicApp_init w ;;
  exec_ (mkState db1 window) events.

(** ** Vocabulary of the properties *)

(** The body of the [try] of [fetch_albums], before its trace is attached. *)
Definition recent_covers (current_user_recently_played : Z -> outcome json)
  : outcome (list json) :=
  obind (current_user_recently_played 5) (fun results =>
  obind (getitem results "items") (fun items =>
  obind (iterate items) (omap album_image_url))).

(** The service answers the query for [limit] plays with at most [limit]
    items. *)
Definition honours_limit (current_user_recently_played : Z -> outcome json)
    (limit : Z) : Prop :=
  forall results items,
    current_user_recently_played limit = Return results ->
    getitem results "items" = Return (JList items) ->
    Z.of_nat (List.length items) <= limit.

(** The statuses [raise_for_status] refuses. *)
Definition http_error (r : Response) : bool :=
  (400 <=? status_code r) && (status_code r <? 600).

(** Effects of the voice pipeline: an emission of [voice_detected], and
    the line [process_command] prints when it is invoked. *)
Definition voice_effect (x : effect) : bool :=
  match x with
  | EmitVoiceDetected _ => true
  | Print (Lit s :: _) => String.eqb s "Recognized command: "
  | _ => false
  end.

(** A run is quiet when none of its effects is one of the voice pipeline. *)
Definition quiet {A} (m : M A) : Prop :=
  Forall (fun x => voice_effect x = false) (snd m).

(** The remote calls of a trace, in order. *)
Definition remote_calls (t : list effect) : list remote_call :=
  flat_map (fun x => match x with Remote c => [c] | _ => [] end) t.

(** The timer ticks among the events. *)
Definition ticks (events : list event) : nat :=
  List.length
    (filter (fun ev => match ev with TimerTimeout _ => true | _ => false end)
       events).

(** The record [fetch_albums] logs. *)
Definition is_albums_log (x : effect) : bool :=
  match x with
  | LogError (Lit s :: _) => String.eqb s "Error fetching albums: "
  | _ => false
  end.

(** The exceptions of subscripting, iteration and membership tests. *)
Definition indexing_error (e : exn) : Prop :=
  exn_class e = KeyError \/ exn_class e = IndexError
  \/ exn_class e = TypeError.

(** Every exception the timer's query raises during [events] is an
    instance of [Exception]. *)
Definition no_interrupt (events : list event) : Prop :=
  forall e, In (TimerTimeout (Raise e)) events -> isinstance e Exception = true.


(** ** Concrete worlds and inputs *)

(** A recently played item whose album has one cover. *)
Definition play (cover : string) : json :=
  JDict [("track",
          JDict [("album",
                  JDict [("images", JList [JDict [("url", JStr cover)]])])])].

(** A session with two recent plays, whatever the limit asked for. *)
Definition two_plays (limit : Z) : outcome json :=
  Return (JDict [("items", JList [play "https://i.scdn.co/image/a";
                                  play "https://i.scdn.co/image/b"])]).


(** A world with nothing recently played. *)
Definition no_recent_plays : world :=
  mkWorld (fun _ => Return (JDict [("items", JList [])]))
          (fun _ _ => Raise (mkExn ConnectionError "unreachable"))
          (fun _ => true).

(** What [current_playback] answers while [song] by [artist] plays. *)
Definition now_playing (song artist : string) : json :=
  JDict [("is_playing", JBool true);
         ("item", JDict [("name", JStr song);
                         ("artists", JList [JDict [("name", JStr artist)]])])].

(** A database with one track stored once. *)
Definition once_stored : database :=
  mkDatabase
    (Some [mkSong (Some "Thriller") (Some "Michael Jackson") (Some "a.mp3")]).

(** A short session: one timer tick while a track plays, then the voice
    thread gets to run. *)
Definition short_session : list event :=
  [TimerTimeout (Return (now_playing "Thriller" "Michael Jackson"));
   VoiceThreadScheduled].

(** A recently played item whose album has no image. *)
Definition play_without_cover : json :=
  JDict [("track", JDict [("album", JDict [("images", JList [])])])].

(** A session whose second recent play has no cover. *)
Definition one_cover_missing (limit : Z) : outcome json :=
  Return (JDict [("items", JList [play "https://i.scdn.co/image/a";
                                  play_without_cover])]).

(** A world with two recent plays; the first cover is served, the second
    request times out. *)
Definition second_cover_times_out : world :=
  mkWorld two_plays
          (fun i _ =>
             match i with
             | O => Return (mkResponse 200 "OK" "https://i.scdn.co/image/a" [])
             | _ => Raise (mkExn Timeout "timed out")
             end)
          (fun _ => true).

(** A world in which Spotify cannot be reached. *)
Definition spotify_unreachable : world :=
  mkWorld (fun _ => Raise (mkExn ConnectionError "Max retries exceeded"))
          (fun _ _ => Raise (mkExn ConnectionError "Max retries exceeded"))
          (fun _ => true).






(** * Properties *)

(** ** Exceptions and sequencing *)

Lemma indexing_error_Exception (e : exn) :
  indexing_error e -> isinstance e Exception = true.
Proof.
  destruct e as [c m]. unfold indexing_error. simpl.
  intros [H | [H | H]]; subst c; reflexivity.
Qed.

Lemma getitem_Raise (v : json) (k : string) (e : exn) :
  getitem v k = Raise e -> indexing_error e.
Proof.
  unfold indexing_error. destruct v; simpl;
    try (intros H; injection H as <-; simpl; tauto).
  destruct (dict_get k d); [discriminate |].
  intros H; injection H as <-; simpl; tauto.
Qed.

Lemma getitem0_Raise (v : json) (e : exn) :
  getitem0 v = Raise e -> indexing_error e.
Proof.
  unfold indexing_error. destruct v as [ | | | | s | l | d]; simpl;
    try (intros H; injection H as <-; simpl; tauto).
  - destruct s; [| discriminate]. intros H; injection H as <-; simpl; tauto.
  - destruct l; [| discriminate]. intros H; injection H as <-; simpl; tauto.
Qed.

Lemma iterate_Raise (v : json) (e : exn) :
  iterate v = Raise e -> indexing_error e.
Proof.
  unfold indexing_error. destruct v; simpl; try discriminate;
    intros H; injection H as <-; simpl; tauto.
Qed.

Lemma contains_Raise (k : string) (v : json) (e : exn) :
  contains k v = Raise e -> indexing_error e.
Proof.
  unfold indexing_error. destruct v; simpl; try discriminate;
    intros H; injection H as <-; simpl; tauto.
Qed.

Lemma obind_Return {A B} (o : outcome A) (k : A -> outcome B) (b : B) :
  obind o k = Return b -> exists a, o = Return a /\ k a = Return b.
Proof.
  destruct o as [a | e]; simpl; intros H; [eauto | discriminate].
Qed.

Lemma omap_Forall2 {A B} (f : A -> outcome B) (l : list A) (ys : list B) :
  omap f l = Return ys -> Forall2 (fun x y => f x = Return y) l ys.
Proof.
  revert ys; induction l as [| x l IH]; simpl; intros ys H.
  - injection H as <-. constructor.
  - apply obind_Return in H as (y & Hy & H).
    apply obind_Return in H as (ys' & Hys & H).
    injection H as <-. constructor; auto.
Qed.

Lemma omap_length {A B} (f : A -> outcome B) (l : list A) (ys : list B) :
  omap f l = Return ys -> List.length ys = List.length l.
Proof.
  intros H. apply omap_Forall2 in H.
  symmetry. eapply Forall2_length; eassumption.
Qed.

Lemma obind_Raise {A B} (o : outcome A) (k : A -> outcome B) (e : exn) :
  obind o k = Raise e -> o = Raise e \/ exists a, o = Return a /\ k a = Raise e.
Proof.
  destruct o as [a | e']; simpl; intros H; [eauto | injection H as ->; auto].
Qed.


(** Finds the subscript that raised in a chain of lookups. *)
Ltac indexing H :=
  cbv beta in H;
  lazymatch type of H with
  | obind _ _ = Raise _ =>
      apply obind_Raise in H; destruct H as [H | (? & _ & H)]; indexing H
  | getitem _ _ = Raise _ => exact (getitem_Raise _ _ _ H)
  | getitem0 _ = Raise _ => exact (getitem0_Raise _ _ H)
  | iterate _ = Raise _ => exact (iterate_Raise _ _ H)
  | contains _ _ = Raise _ => exact (contains_Raise _ _ _ H)
  end.

Lemma album_image_url_Raise (item : json) (e : exn) :
  album_image_url item = Raise e -> indexing_error e.
Proof. unfold album_image_url. intros H. indexing H. Qed.

(** ** [fetch_albums] *)

Lemma fetch_albums_cases (f : Z -> outcome json) :
  fetch_albums f =
  match recent_covers f with
  | Return urls => (Return urls, [Remote (RecentlyPlayed 5)])
  | Raise e =>
      if isinstance e Exception
      then (Return [],
            [Remote (RecentlyPlayed 5);
             LogError [Lit "Error fetching albums: "; Exc e]])
      else (Raise e, [Remote (RecentlyPlayed 5)])
  end.
Proof.
  unfold fetch_albums, recent_covers, try_except, bind, lift, perform, ret.
  destruct (f 5) as [results | e]; simpl.
  - destruct (obind (getitem results "items") _) as [urls | e]; simpl;
      [reflexivity |].
    destruct (isinstance e Exception); reflexivity.
  - destruct (isinstance e Exception); reflexivity.
Qed.


(** A string has no ['track']: a loop over the keys of a dictionary or
    over the characters of a string collects nothing. *)
Lemma omap_album_image_url_strings (l : list json) (urls : list json) :
  Forall (fun x => exists s, x = JStr s) l ->
  omap album_image_url l = Return urls -> urls = [].
Proof.
  intros Hl H. destruct Hl as [| x l (s & ->) _]; simpl in H.
  - now injection H as <-.
  - discriminate.
Qed.

Lemma chars_strings (s : string) : Forall (fun x => exists c, x = JStr c) (chars s).
Proof. induction s; simpl; constructor; eauto. Qed.

Lemma recent_covers_length (f : Z -> outcome json) (urls : list json) :
  honours_limit f 5 -> recent_covers f = Return urls -> (List.length urls <= 5)%nat.
Proof.
  unfold recent_covers. intros Hlim H.
  apply obind_Return in H as (results & Hres & H).
  apply obind_Return in H as (items & Hitems & H).
  apply obind_Return in H as (l & Hiter & H).
  destruct items as [ | | | | s | l' | d]; simpl in Hiter; try discriminate;
    injection Hiter as <-.
  - apply omap_album_image_url_strings in H; [subst; simpl; lia |].
    apply chars_strings.
  - apply omap_length in H. specialize (Hlim results l' Hres Hitems). lia.
  - apply omap_album_image_url_strings in H; [subst; simpl; lia |].
    apply Forall_forall. intros x Hx. apply in_map_iff in Hx as (kv & <- & _).
    eauto.
Qed.




Lemma omap_Raise {A B} (f : A -> outcome B) (l : list A) :
  Exists (fun x => exists e, f x = Raise e) l ->
  exists e before x after,
    l = before ++ x :: after
    /\ Forall (fun y => exists b, f y = Return b) before
    /\ f x = Raise e
    /\ omap f l = Raise e.
Proof.
  induction l as [| x l IH]; intros Hex; [inversion Hex |].
  simpl. destruct (f x) as [y | e] eqn:Hx; simpl.
  - assert (Htail : Exists (fun x => exists e, f x = Raise e) l).
    { inversion Hex as [? ? (e & He) | ? ? Ht]; subst; [congruence | exact Ht]. }
    destruct (IH Htail) as (e & before & x' & after & -> & Hok & Hx' & Hmap).
    exists e, (x :: before), x', after. rewrite Hmap. simpl.
    repeat split; auto. constructor; eauto.
  - exists e, [], x, l. auto.
Qed.

(** X3.  The covers are all or nothing.  When the query answers with a
    list of items and one of them has no
    ['track']['album']['images'][0]['url'], [fetch_albums] returns the
    empty list, although the other items have a cover, and logs the
    exception of the first such item; an empty list of items gives the
    empty list without any log record. *)
Theorem fetch_albums_all_or_nothing :
  forall (f : Z -> outcome json) (results : json) (items : list json),
    f 5 = Return results ->
    getitem results "items" = Return (JList items) ->
    (Exists (fun item => exists e, album_image_url item = Raise e) items ->
     exists e before item after,
       items = before ++ item :: after
       /\ Forall (fun it => exists u, album_image_url it = Return u) before
       /\ album_image_url item = Raise e
       /\ fetch_albums f =
          (Return [],
           [Remote (RecentlyPlayed 5);
            LogError [Lit "Error fetching albums: "; Exc e]]))
    /\ (items = [] ->
        fetch_albums f = (Return [], [Remote (RecentlyPlayed 5)])).
Proof.
  intros f results items Hres Hitems.
  rewrite fetch_albums_cases. unfold recent_covers.
  rewrite Hres. simpl. rewrite Hitems. simpl. split.
  - intros Hex.
    destruct (omap_Raise _ _ Hex) as (e & before & item & after & H & Hok & He & Hmap).
    exists e, before, item, after. rewrite Hmap.
    rewrite (indexing_error_Exception e (album_image_url_Raise _ _ He)).
    auto.
  - intros ->. reflexivity.
Qed.

Lemma fetch_albums_all_or_nothing_witness :
  exists e,
    album_image_url play_without_cover = Raise e
    /\ fetch_albums one_cover_missing =
       (Return [],
        [Remote (RecentlyPlayed 5);
         LogError [Lit "Error fetching albums: "; Exc e]]).
Proof.
  destruct (fetch_albums_all_or_nothing one_cover_missing _ _ eq_refl eq_refl)
    as [Hbad _].
  destruct Hbad as (e & before & item & after & _ & _ & _ & Hrun).
  - apply Exists_cons_tl. apply Exists_cons_hd. eexists. reflexivity.
  - exists e. split; [| exact Hrun].
    vm_compute in Hrun. injection Hrun as <-. reflexivity.
Defined.

(** ** [get_pixmap] *)

Lemma raise_for_status_error (r : Response) :
  http_error r = true ->
  exists e, raise_for_status r = Raise e /\ exn_class e = HTTPError.
Proof.
  unfold http_error, raise_for_status.
  destruct (Z.leb_spec 400 (status_code r)), (Z.ltb_spec (status_code r) 500),
    (Z.leb_spec 500 (status_code r)), (Z.ltb_spec (status_code r) 600);
    simpl; intros Herr; try discriminate; try lia; eauto.
Qed.

Lemma raise_for_status_ok (r : Response) :
  http_error r = false -> raise_for_status r = Return tt.
Proof.
  unfold http_error, raise_for_status.
  destruct (Z.leb_spec 400 (status_code r)), (Z.ltb_spec (status_code r) 500),
    (Z.leb_spec 500 (status_code r)), (Z.ltb_spec (status_code r) 600);
    simpl; intros Herr; try discriminate; try lia; reflexivity.
Qed.


Lemma get_pixmap_cases (dec : list byte -> bool)
    (get : json -> outcome Response) (u : json) :
  get_pixmap dec get u =
  match get u with
  | Raise e =>
      if isinstance e RequestException
      then (Return NullPixmap,
            [Remote (HttpGet u);
             LogError [Lit "Error fetching album cover: "; Exc e]])
      else (Raise e, [Remote (HttpGet u)])
  | Return r =>
      match raise_for_status r with
      | Raise e =>
          (Return NullPixmap,
           [Remote (HttpGet u);
            LogError [Lit "Error fetching album cover: "; Exc e]])
      | Return _ =>
          (Return (loadFromData dec (content r)), [Remote (HttpGet u)])
      end
  end.
Proof.
  unfold get_pixmap, try_except, bind, lift, perform, ret.
  destruct (get u) as [r | e]; simpl.
  - destruct (raise_for_status r) as [[] | e] eqn:Hst; simpl; [reflexivity |].
    destruct (http_error r) eqn:Herr.
    + apply raise_for_status_error in Herr as (e' & He' & Hcls).
      rewrite He' in Hst. injection Hst as ->.
      unfold isinstance. rewrite Hcls. reflexivity.
    + apply raise_for_status_ok in Herr. congruence.
  - destruct (isinstance e RequestException); reflexivity.
Qed.




(** ** [get_pixmap]: when a cover is shown *)

(** X4.  [get_pixmap] returns a loaded pixmap exactly when the request
    returned, its status is outside 400-599 and Qt can decode the content;
    the pixmap then holds that content and nothing is logged.  Content
    that Qt cannot decode gives the null pixmap without any log record. *)
Theorem get_pixmap_loaded_iff :
  forall (dec : list byte -> bool) (get : json -> outcome Response) (u : json),
    (forall data t,
        get_pixmap dec get u = (Return (Pixmap data), t) <->
        exists r,
          get u = Return r
          /\ http_error r = false
          /\ dec (content r) = true
          /\ data = content r
          /\ t = [Remote (HttpGet u)])
    /\ (forall r,
          get u = Return r -> http_error r = false ->
          dec (content r) = false ->
          get_pixmap dec get u = (Return NullPixmap, [Remote (HttpGet u)])).
Proof.
  intros dec get u. rewrite get_pixmap_cases. split.
  - intros data t. split.
    + destruct (get u) as [r | e].
      * destruct (http_error r) eqn:Herr.
        -- apply raise_for_status_error in Herr as (e & -> & _). discriminate.
        -- rewrite (raise_for_status_ok r Herr). unfold loadFromData.
           destruct (dec (content r)) eqn:Hdec; [| discriminate].
           intros H. injection H as <- <-. exists r. auto.
      * destruct (isinstance e RequestException); discriminate.
    + intros (r & -> & Herr & Hdec & -> & ->).
      rewrite (raise_for_status_ok r Herr). unfold loadFromData.
      now rewrite Hdec.
  - intros r -> Herr Hdec. rewrite (raise_for_status_ok r Herr).
    unfold loadFromData. now rewrite Hdec.
Qed.

(** ** The voice pipeline *)

Lemma quiet_ret {A} (a : A) : quiet (ret a).
Proof. constructor. Qed.

Lemma quiet_lift {A} (o : outcome A) : quiet (lift o).
Proof. constructor. Qed.

Lemma quiet_perform (x : effect) : voice_effect x = false -> quiet (perform x).
Proof. intros H. repeat constructor. exact H. Qed.

Lemma quiet_bind {A B} (m : M A) (k : A -> M B) :
  quiet m -> (forall a, quiet (k a)) -> quiet (bind m k).
Proof.
  unfold quiet. destruct m as [[a | e] t]; simpl; intros Hm Hk; [| exact Hm].
  specialize (Hk a). destruct (k a) as [r t']. simpl in *.
  apply Forall_app. split; assumption.
Qed.

Lemma quiet_try_except {A} (body : M A) (cls : pyclass) (h : exn -> M A) :
  quiet body -> (forall e, quiet (h e)) -> quiet (try_except body cls h).
Proof.
  unfold quiet, try_except. destruct body as [[a | e] t]; simpl;
    intros Hb Hh; [exact Hb |].
  destruct (isinstance e cls); [| exact Hb].
  specialize (Hh e). destruct (h e) as [r t']. simpl in *.
  apply Forall_app. split; assumption.
Qed.

Create HintDb quiet.
#[local] Hint Resolve quiet_ret quiet_lift : quiet.

(** Peels one construct of a computation off a [quiet] goal. *)
Ltac quiet_step :=
  match goal with
  | |- quiet (bind _ _) => apply quiet_bind; [| intros ?]
  | |- quiet (try_except _ _ _) => apply quiet_try_except; [| intros ?]
  | |- quiet (perform _) => apply quiet_perform; reflexivity
  | |- quiet (if ?b then _ else _) => destruct b
  | |- quiet (ret _) => apply quiet_ret
  | |- quiet (lift _) => apply quiet_lift
  end.

Lemma quiet_fetch_albums (f : Z -> outcome json) : quiet (fetch_albums f).
Proof. unfold fetch_albums. repeat quiet_step. Qed.

Lemma quiet_get_pixmap (dec : list byte -> bool)
    (get : json -> outcome Response) (u : json) :
  quiet (get_pixmap dec get u).
Proof. unfold get_pixmap. repeat quiet_step. Qed.

Lemma quiet_update_playing_album (playback : outcome json) :
  quiet (update_playing_album playback).
Proof. unfold update_playing_album. repeat quiet_step. Qed.

Lemma quiet_open_settings : quiet open_settings.
Proof. unfold open_settings. quiet_step. Qed.

Lemma quiet_import_background (file_name : string) :
  quiet (import_background file_name).
Proof. unfold import_background. repeat quiet_step. Qed.

Lemma quiet_run : quiet run.
Proof. unfold run. quiet_step. Qed.

#[local] Hint Resolve quiet_fetch_albums quiet_get_pixmap
  quiet_update_playing_album quiet_open_settings quiet_import_background
  quiet_run : quiet.

Lemma quiet_load_covers (w : world) (urls : list json) (i : nat) :
  quiet (load_covers w i urls).
Proof.
  revert i. induction urls as [| u urls IH]; intros i; simpl.
  - auto with quiet.
  - apply quiet_bind; [auto with quiet |]. intros pixmap.
    apply quiet_bind; [apply IH |]. intros labels. auto with quiet.
Qed.

Lemma quiet_MusicApp_init (w : world) : quiet (MusicApp_init w).
Proof.
  unfold MusicApp_init. apply quiet_bind; [auto with quiet |]. intros urls.
  apply quiet_bind; [apply quiet_load_covers |]. intros labels.
  auto with quiet.
Qed.

Lemma quiet_dispatch (st : state) (ev : event) : quiet (dispatch st ev).
Proof.
  destruct ev as [playback | | file_name |]; unfold dispatch.
  - destruct (timer_active (window st)); [| auto with quiet].
    apply quiet_bind; auto with quiet.
  - apply quiet_bind; auto with quiet.
  - apply quiet_bind; auto with quiet.
  - destruct (voice_thread (window st)); [| auto with quiet].
    apply quiet_bind; auto with quiet.
Qed.

(** With no emission to deliver, no slot is invoked. *)
Lemma deliver_signals_quiet (t : list effect) :
  Forall (fun x => voice_effect x = false) t -> deliver_signals t = ret tt.
Proof.
  induction 1 as [| x t Hx _ IH]; simpl; [reflexivity |].
  destruct x; try exact IH. discriminate.
Qed.

Lemma quiet_step_event (st : state) (ev : event) : quiet (step st ev).
Proof.
  unfold step. pose proof (quiet_dispatch st ev) as Hd.
  apply quiet_bind; [exact Hd |]. intros st'.
  rewrite (deliver_signals_quiet _ Hd).
  apply quiet_bind; auto with quiet.
Qed.

Lemma quiet_exec_ (events : list event) (st : state) : quiet (exec_ st events).
Proof.
  revert st. induction events as [| ev events IH]; intros st; simpl.
  - auto with quiet.
  - apply quiet_bind; [apply quiet_step_event | intros st'; apply IH].
Qed.

Lemma quiet_program (w : world) (db0 : database) (events : list event) :
  quiet (program w db0 events).
Proof.
  unfold program. apply quiet_bind; [apply quiet_MusicApp_init |].
  intros app. apply quiet_exec_.
Qed.

Lemma quiet_not_In {A} (m : M A) (x : effect) :
  quiet m -> voice_effect x = true -> ~ In x (snd m).
Proof.
  intros Hq Hx Hin. unfold quiet in Hq. rewrite Forall_forall in Hq.
  specialize (Hq x Hin). congruence.
Qed.

(** C10.  [VoiceRecognitionThread.run] prints one line and emits nothing.
    In every execution of the program, whatever the world answers and
    whatever events arrive, [voice_detected] is never emitted and the slot
    connected to it, [process_command], is never invoked: its line is
    never printed for any command. *)
Theorem voice_detected_never_emitted :
  run = (Return tt, [Print [Lit "Voice recognition running in background"]])
  /\ deliver_signals (snd run) = ret tt
  /\ (forall (w : world) (db0 : database) (events : list event)
             (command : string),
         ~ In (EmitVoiceDetected command) (snd (program w db0 events))
         /\ ~ In (Print [Lit "Recognized command: "; Val (JStr command)])
                 (snd (program w db0 events))).
Proof.
  split; [reflexivity |]. split; [reflexivity |].
  intros w db0 events command.
  split; apply quiet_not_In; try apply quiet_program; reflexivity.
Qed.

(** ** [update_playing_album] *)

Lemma getitem_Return_inv (v : json) (k : string) (x : json) :
  getitem v k = Return x -> exists d, v = JDict d /\ dict_get k d = Some x.
Proof.
  destruct v; simpl; try discriminate.
  destruct (dict_get k d) eqn:Hget; [| discriminate].
  intros H. injection H as <-. eauto.
Qed.

(** A key that can be read is a key the dictionary contains. *)
Lemma dict_get_contains (k : string) (d : list (string * json)) (x : json) :
  dict_get k d = Some x ->
  truthy (JDict d) = true /\ contains k (JDict d) = Return true.
Proof.
  intros Hget. split.
  - destruct d; [discriminate | reflexivity].
  - simpl. f_equal. induction d as [| [k' v] d IH]; simpl in *; [discriminate |].
    rewrite (String.eqb_sym k' k).
    destruct (String.eqb k k'); [reflexivity | auto].
Qed.

Lemma update_playing_album_cases (v : json) :
  update_playing_album (Return v) =
  let logged e :=
    (Return tt,
     [Remote CurrentPlayback;
      LogError [Lit "Error updating playing album: "; Exc e]]) in
  if truthy v then
    match contains "item" v with
    | Raise e => logged e
    | Return false => (Return tt, [Remote CurrentPlayback])
    | Return true =>
        match obind (getitem v "item") (fun item => getitem item "name") with
        | Raise e => logged e
        | Return song =>
            match obind (getitem v "item") (fun item =>
                  obind (getitem item "artists") (fun artists =>
                  obind (getitem0 artists) (fun first =>
                  getitem first "name"))) with
            | Raise e => logged e
            | Return artist =>
                (Return tt,
                 [Remote CurrentPlayback;
                  Print [Lit "Currently playing: "; Val song;
                         Lit " by "; Val artist]])
            end
        end
    end
  else (Return tt, [Remote CurrentPlayback]).
Proof.
  unfold update_playing_album, try_except, bind, lift, perform, ret. simpl.
  destruct (truthy v); [| reflexivity].
  destruct (contains "item" v) as [[|] | e] eqn:Hcontains; simpl;
    [| reflexivity
     | rewrite (indexing_error_Exception e (contains_Raise _ _ _ Hcontains));
       reflexivity].
  destruct (obind (getitem v "item") (fun item => getitem item "name"))
    as [song | e] eqn:Hsong; simpl.
  - destruct (obind (getitem v "item") (fun item => obind _ _))
      as [artist | e] eqn:Hartist; simpl; [reflexivity |].
    assert (Hidx : indexing_error e) by indexing Hartist.
    now rewrite (indexing_error_Exception e Hidx).
  - assert (Hidx : indexing_error e) by indexing Hsong.
    now rewrite (indexing_error_Exception e Hidx).
Qed.

Lemma update_playing_album_Raise (e : exn) :
  update_playing_album (Raise e) =
  if isinstance e Exception
  then (Return tt,
        [Remote CurrentPlayback;
         LogError [Lit "Error updating playing album: "; Exc e]])
  else (Raise e, [Remote CurrentPlayback]).
Proof.
  unfold update_playing_album. simpl.
  destruct (isinstance e Exception); reflexivity.
Qed.

(** Whatever the answer is, the slot returns. *)
Lemma update_playing_album_Return (v : json) :
  exists t, update_playing_album (Return v) = (Return tt, t).
Proof.
  rewrite update_playing_album_cases. cbv zeta.
  destruct (truthy v); [| eauto].
  destruct (contains "item" v) as [[|] | e]; eauto.
  destruct (obind (getitem v "item") (fun item => getitem item "name"));
    eauto.
  destruct (obind (getitem v "item") (fun item => obind _ _)); eauto.
Qed.


(** ** [update_playing_album]: when the notice is printed *)

(** X5.  The now-playing line is printed exactly when the answer of
    [current_playback] has an ['item'] with a ['name'] and a first artist
    with a ['name']; the line names that track and that first artist
    only, and it is then the only output of the tick: nothing is
    logged. *)
Theorem update_playing_album_announces_iff :
  forall (v : json) (line : list frag),
    (In (Print line) (snd (update_playing_album (Return v))) <->
     exists item song artists first artist,
       getitem v "item" = Return item
       /\ getitem item "name" = Return song
       /\ getitem item "artists" = Return artists
       /\ getitem0 artists = Return first
       /\ getitem first "name" = Return artist
       /\ line = [Lit "Currently playing: "; Val song;
                  Lit " by "; Val artist])
    /\ (In (Print line) (snd (update_playing_album (Return v))) ->
        update_playing_album (Return v) =
        (Return tt, [Remote CurrentPlayback; Print line])).
Proof.
  intros v line. rewrite update_playing_album_cases. cbv zeta.
  assert (Hno1 : ~ In (Print line) [Remote CurrentPlayback])
    by (intros [H | []]; discriminate).
  assert (Hno2 : forall e,
             ~ In (Print line)
                 [Remote CurrentPlayback;
                  LogError [Lit "Error updating playing album: "; Exc e]])
    by (intros e [H | [H | []]]; discriminate).
  split; [split |].
  - destruct (truthy v); [| intros H; destruct (Hno1 H)].
    destruct (contains "item" v) as [[|] | e]; simpl;
      try (intros H; solve [destruct (Hno1 H) | destruct (Hno2 _ H)]).
    destruct (obind (getitem v "item") (fun item => getitem item "name"))
      as [song | e] eqn:Hsong;
      [| intros H; destruct (Hno2 _ H)].
    destruct (obind (getitem v "item") (fun item => obind _ _))
      as [artist | e] eqn:Hartist;
      [| intros H; destruct (Hno2 _ H)].
    intros [H | [H | []]]; [discriminate |]. injection H as <-.
    apply obind_Return in Hsong as (item & Hitem & Hname).
    apply obind_Return in Hartist as (item' & Hitem' & Hartist).
    apply obind_Return in Hartist as (artists & Hartists & Hartist).
    apply obind_Return in Hartist as (first & Hfirst & Hartist).
    assert (item' = item) by congruence. subst item'.
    exists item, song, artists, first, artist. auto 10.
  - intros (item & song & artists & first & artist
            & Hitem & Hname & Hartists & Hfirst & Hartist & ->).
    destruct (getitem_Return_inv _ _ _ Hitem) as (d & -> & Hget).
    destruct (dict_get_contains _ _ _ Hget) as [-> ->].
    rewrite Hitem. simpl. rewrite Hname, Hartists. simpl.
    rewrite Hfirst. simpl. rewrite Hartist. simpl. auto.
  - destruct (truthy v); [| intros H; destruct (Hno1 H)].
    destruct (contains "item" v) as [[|] | e]; simpl;
      try (intros H; solve [destruct (Hno1 H) | destruct (Hno2 _ H)]).
    destruct (obind (getitem v "item") (fun item => getitem item "name"))
      as [song | e]; [| intros H; destruct (Hno2 _ H)].
    destruct (obind (getitem v "item") (fun item => obind _ _))
      as [artist | e]; [| intros H; destruct (Hno2 _ H)].
    intros [H | [H | []]]; [discriminate |]. injection H as <-. reflexivity.
Qed.

(** ** Whole runs *)

Lemma bind_Return_inv {A B} (m : M A) (k : A -> M B) (b : B) (t : list effect) :
  bind m k = (Return b, t) ->
  exists a t1 t2, m = (Return a, t1) /\ k a = (Return b, t2) /\ t = t1 ++ t2.
Proof.
  destruct m as [[a | e] t1]; simpl; [| discriminate].
  destruct (k a) as [r t2] eqn:Hk. intros H. injection H as -> <-.
  exists a, t1, t2. auto.
Qed.


Lemma remote_calls_app (t1 t2 : list effect) :
  remote_calls (t1 ++ t2) = remote_calls t1 ++ remote_calls t2.
Proof. apply flat_map_app. Qed.

Lemma fetch_albums_trace (f : Z -> outcome json) :
  remote_calls (snd (fetch_albums f)) = [RecentlyPlayed 5].
Proof.
  rewrite fetch_albums_cases. destruct (recent_covers f) as [urls | e];
    [reflexivity |].
  destruct (isinstance e Exception); reflexivity.
Qed.


Lemma get_pixmap_trace (dec : list byte -> bool)
    (get : json -> outcome Response) (u : json) :
  remote_calls (snd (get_pixmap dec get u)) = [HttpGet u]
  /\ filter is_albums_log (snd (get_pixmap dec get u)) = [].
Proof.
  rewrite get_pixmap_cases. destruct (get u) as [r | e].
  - destruct (raise_for_status r); split; reflexivity.
  - destruct (isinstance e RequestException); split; reflexivity.
Qed.


Lemma update_playing_album_trace (playback : outcome json) :
  remote_calls (snd (update_playing_album playback)) = [CurrentPlayback]
  /\ filter is_albums_log (snd (update_playing_album playback)) = [].
Proof.
  destruct playback as [v | e].
  - rewrite update_playing_album_cases. cbv zeta.
    destruct (truthy v); [| split; reflexivity].
    destruct (contains "item" v) as [[|] | e]; try (split; reflexivity).
    destruct (obind (getitem v "item") (fun item => getitem item "name"));
      [| split; reflexivity].
    destruct (obind (getitem v "item") (fun item => obind _ _));
      split; reflexivity.
  - rewrite update_playing_album_Raise.
    destruct (isinstance e Exception); split; reflexivity.
Qed.

Lemma import_background_trace (file_name : string) :
  exists t,
    import_background file_name = (Return tt, t)
    /\ remote_calls t = [] /\ filter is_albums_log t = [].
Proof.
  unfold import_background. destruct (truthy (JStr file_name));
    eexists; repeat split.
Qed.

(** The covers loaded for [urls], the requests numbered from [i]. *)
Lemma load_covers_Return (w : world) (urls : list json) :
  forall (i : nat) (labels : list QPixmap) (t : list effect),
    load_covers w i urls = (Return labels, t) ->
    List.length labels = List.length urls
    /\ (forall k u,
          nth_error urls k = Some u ->
          exists p t',
            get_pixmap (decodable w) (requests_get w (i + k)%nat) u = (Return p, t')
            /\ nth_error labels k = Some p)
    /\ remote_calls t = map HttpGet urls
    /\ filter is_albums_log t = [].
Proof.
  induction urls as [| u urls IH]; intros i labels t Hrun.
  - injection Hrun as <- <-. repeat split. intros [| k] u'; discriminate.
  - cbn [load_covers] in Hrun.
    apply bind_Return_inv in Hrun as (p & t1 & t2 & Hp & Hrun & ->).
    apply bind_Return_inv in Hrun as (ps & t3 & t4 & Hps & Hrun & ->).
    injection Hrun as <- <-.
    destruct (IH _ _ _ Hps) as (Hlen & Hnth & Hcalls & Hlog).
    pose proof (get_pixmap_trace (decodable w) (requests_get w i) u) as [Hc Hl].
    rewrite Hp in Hc, Hl. simpl in Hc, Hl.
    split; [simpl; congruence |]. split; [| split].
    + intros [| k] u' Hk; simpl in Hk.
      * injection Hk as <-. rewrite Nat.add_0_r. eauto.
      * destruct (Hnth k u' Hk) as (p' & t' & Hget & Hlab).
        replace (i + S k)%nat with (S i + k)%nat by lia. eauto.
    + rewrite !remote_calls_app, app_nil_r, Hc, Hcalls. reflexivity.
    + rewrite !filter_app, Hl, Hlog. reflexivity.
Qed.


Lemma MusicApp_init_Return (w : world) (app : MusicApp) (t : list effect) :
  MusicApp_init w = (Return app, t) ->
  exists urls labels t1 t2,
    fetch_albums (current_user_recently_played w) = (Return urls, t1)
    /\ load_covers w 0 urls = (Return labels, t2)
    /\ app = mkMusicApp urls labels true Started
    /\ t = t1 ++ t2.
Proof.
  unfold MusicApp_init. intros Hrun.
  apply bind_Return_inv in Hrun as (urls & t1 & t2 & Hurls & Hrun & ->).
  apply bind_Return_inv in Hrun as (labels & t3 & t4 & Hlabels & Hrun & ->).
  injection Hrun as <- <-. exists urls, labels, t1, t3.
  rewrite app_nil_r. auto.
Qed.

(** What one event does, from a state whose timer runs: the slot
    returns, or it is the timer's slot and the query raised an exception
    outside [Exception]. *)
Lemma step_cases (st : state) (ev : event) :
  timer_active (window st) = true ->
  (exists st' t,
      step st ev = (Return st', t)
      /\ db st' = db st
      /\ albums (window st') = albums (window st)
      /\ album_labels (window st') = album_labels (window st)
      /\ timer_active (window st') = true
      /\ remote_calls t
         = match ev with TimerTimeout _ => [CurrentPlayback] | _ => [] end
      /\ filter is_albums_log t = []
      /\ (forall e, ev = TimerTimeout (Raise e) ->
                    isinstance e Exception = true))
  \/ (exists e,
         ev = TimerTimeout (Raise e)
         /\ isinstance e Exception = false
         /\ step st ev = (Raise e, [Remote CurrentPlayback])).
Proof.
  intros Htimer. unfold step. pose proof (quiet_dispatch st ev) as Hq.
  rewrite (deliver_signals_quiet _ Hq). clear Hq.
  destruct ev as [playback | | file_name |]; unfold dispatch.
  - rewrite Htimer.
    destruct (update_playing_album_trace playback) as [Hc Hl].
    destruct playback as [v | e].
    + left. destruct (update_playing_album_Return v) as (t & Hrun).
      rewrite Hrun in *. simpl in Hc, Hl.
      exists st, ((t ++ []) ++ []). rewrite !app_nil_r, Hc, Hl.
      simpl. rewrite !app_nil_r. repeat split; auto. discriminate.
    + rewrite update_playing_album_Raise in *.
      destruct (isinstance e Exception) eqn:Hcls.
      * left. do 2 eexists. repeat split; auto.
        intros e' He'. injection He' as <-. exact Hcls.
      * right. exists e. auto.
  - left. exists st, [Print [Lit "Opening settings..."]].
    repeat split; auto. discriminate.
  - left. destruct (import_background_trace file_name) as (t & Hrun & Hc & Hl).
    rewrite Hrun. exists st, ((t ++ []) ++ []). rewrite !app_nil_r, Hc, Hl.
    simpl. rewrite !app_nil_r. repeat split; auto. discriminate.
  - left. destruct (voice_thread (window st));
      do 2 eexists; repeat split; auto; discriminate.
Qed.

(** The event loop serves every event, or stops at the first timer tick
    whose query raises an exception outside [Exception]. *)
Lemma exec_cases (events : list event) :
  forall st : state,
    timer_active (window st) = true ->
    (exists st' t,
        exec_ st events = (Return st', t)
        /\ db st' = db st
        /\ albums (window st') = albums (window st)
        /\ album_labels (window st') = album_labels (window st)
        /\ remote_calls t = repeat CurrentPlayback (ticks events)
        /\ filter is_albums_log t = []
        /\ no_interrupt events)
    \/ (exists e t before after,
           exec_ st events = (Raise e, t)
           /\ events = before ++ TimerTimeout (Raise e) :: after
           /\ isinstance e Exception = false
           /\ no_interrupt before
           /\ remote_calls t = repeat CurrentPlayback (S (ticks before))).
Proof.
  induction events as [| ev events IH]; intros st Htimer.
  - left. exists st, []. repeat split. intros e [].
  - cbn [exec_].
    destruct (step_cases st ev Htimer)
      as [(st1 & t1 & Hstep & Hdb1 & Halb1 & Hlab1 & Htimer1 & Hc1 & Hl1 & Hev)
         | (e & -> & Hcls & Hstep)].
    + rewrite Hstep. simpl.
      destruct (IH st1 Htimer1)
        as [(st2 & t2 & Hrest & Hdb2 & Halb2 & Hlab2 & Hc2 & Hl2 & Hno)
           | (e & t2 & before & after & Hrest & -> & Hcls & Hno & Hc2)].
      * left. exists st2, (t1 ++ t2). rewrite Hrest.
        split; [reflexivity |].
        split; [congruence |]. split; [congruence |]. split; [congruence |].
        split; [| split].
        -- rewrite remote_calls_app, Hc1, Hc2. unfold ticks.
           destruct ev; reflexivity.
        -- rewrite filter_app, Hl1, Hl2. reflexivity.
        -- intros e [He | He]; [exact (Hev e He) | exact (Hno e He)].
      * right. exists e, (t1 ++ t2), (ev :: before), after. rewrite Hrest.
        split; [reflexivity |]. split; [reflexivity |].
        split; [exact Hcls |]. split.
        -- intros e' [He | He]; [exact (Hev e' He) | exact (Hno e' He)].
        -- rewrite remote_calls_app, Hc1, Hc2. unfold ticks.
           destruct ev; reflexivity.
    + right. exists e, [Remote CurrentPlayback], [], events.
      rewrite Hstep. simpl. repeat split; auto. intros e' [].
Qed.

(** A run that ends: the window it built and the trace it left. *)
Lemma program_Return (w : world) (db0 : database) (events : list event)
    (st : state) (t : list effect) :
  program w db0 events = (Return st, t) ->
  exists urls labels t1 t2 t3,
    fetch_albums (current_user_recently_played w) = (Return urls, t1)
    /\ load_covers w 0 urls = (Return labels, t2)
    /\ t = (t1 ++ t2) ++ t3
    /\ db st = create_songs_table db0
    /\ albums (window st) = urls
    /\ album_labels (window st) = labels
    /\ remote_calls t3 = repeat CurrentPlayback (ticks events)
    /\ filter is_albums_log t3 = [].
Proof.
  unfold program. cbv zeta. intros Hrun.
  apply bind_Return_inv in Hrun as (app & t0 & t3 & Hinit & Hrun & ->).
  apply MusicApp_init_Return in Hinit as (urls & labels & t1 & t2 & H1 & H2 & -> & ->).
  destruct (exec_cases events
              (mkState (create_songs_table db0)
                 (mkMusicApp urls labels true Started)) eq_refl)
    as [(st' & t' & Hexec & Hdb & Halb & Hlab & Hc & Hl & _)
       | (e & t' & before & after & Hexec & _)]; [| congruence].
  rewrite Hrun in Hexec. injection Hexec as <- <-.
  exists urls, labels, t1, t2, t3. simpl in *. auto 10.
Qed.

Lemma songs_rows_create (d : database) :
  songs_rows (create_songs_table d) = songs_rows d.
Proof. destruct d as [[rows |]]; reflexivity. Qed.



(** ** The offline table *)

(** C7 fails on the code: no step of the program writes to the [songs]
    table.  A run that gets past start-up ends with the rows it found;
    and on a new database, after the timer has seen "Thriller" by Michael
    Jackson playing online (it printed so), the table holds no row,
    whatever events follow, unless an interrupt ends the run before its
    last event. *)
Theorem songs_table_never_written :
  (forall (w : world) (db0 : database) (events : list event),
      match fst (program w db0 events) with
      | Return st => songs_rows (db st) = songs_rows db0
      | Raise _ => True
      end)
  /\ (forall events : list event,
        (exists st t,
            program no_recent_plays (mkDatabase None)
              (TimerTimeout (Return (now_playing "Thriller" "Michael Jackson"))
               :: events) = (Return st, t)
            /\ In (Print [Lit "Currently playing: "; Val (JStr "Thriller");
                          Lit " by "; Val (JStr "Michael Jackson")]) t
            /\ songs (db st) = Some [])
        \/ (exists e t,
              program no_recent_plays (mkDatabase None)
                (TimerTimeout (Return (now_playing "Thriller" "Michael Jackson"))
                 :: events) = (Raise e, t)
              /\ isinstance e Exception = false
              /\ In (Print [Lit "Currently playing: "; Val (JStr "Thriller");
                            Lit " by "; Val (JStr "Michael Jackson")]) t)).
Proof.
  split.
  - intros w db0 events.
    destruct (program w db0 events) as [[st | e] t] eqn:Hrun; simpl;
      [| exact I].
    apply program_Return in Hrun as (? & ? & ? & ? & ? & _ & _ & _ & Hdb & _).
    rewrite Hdb. apply songs_rows_create.
  - intros events. unfold program. cbv zeta. simpl.
    destruct (exec_cases events
                (mkState (create_songs_table (mkDatabase None))
                   (mkMusicApp [] [] true Started))
                eq_refl)
      as [(st & t & -> & Hdb & _) | (e & t & before & after & -> & _ & Hcls & _)].
    + left. do 2 eexists. split; [reflexivity |]. split; [simpl; auto |].
      now rewrite Hdb.
    + right. do 2 eexists. split; [reflexivity |]. split; [exact Hcls |].
      simpl. auto.
Qed.


(** C5 fails on the code: the now-playing notice is printed by the timer
    slot [update_playing_album].  With no voice event at all, one timer
    tick during which [song] by [artist] is playing prints the notice. *)
Theorem timer_announces_without_voice :
  forall song artist : string,
    program no_recent_plays (mkDatabase None)
      [TimerTimeout (Return (now_playing song artist))]
    = (Return (mkState (mkDatabase (Some []))
                 (mkMusicApp [] [] true Started)),
       [Remote (RecentlyPlayed 5);
        Remote CurrentPlayback;
        Print [Lit "Currently playing: "; Val (JStr song);
               Lit " by "; Val (JStr artist)]]).
Proof. intros song artist. reflexivity. Qed.

(** ** The window and its covers *)

Lemma fetch_albums_Return_length (f : Z -> outcome json) (urls : list json)
    (t : list effect) :
  fetch_albums f = (Return urls, t) ->
  honours_limit f 5 -> (List.length urls <= 5)%nat.
Proof.
  rewrite fetch_albums_cases. intros Hrun Hlim.
  destruct (recent_covers f) as [urls' | e] eqn:Hbody.
  - injection Hrun as <- _. eapply recent_covers_length; eassumption.
  - destruct (isinstance e Exception); [| discriminate].
    injection Hrun as <- _. simpl. lia.
Qed.

(** X6.  In every state a run reaches, the album slider has one label
    per URL that [fetch_albums] returned, in the same order: the [k]-th
    label is the pixmap [get_pixmap] returned for the [k]-th URL, so a
    cover that failed to load leaves a null pixmap in its place.  The
    slider has at most 5 labels when the service honours [limit=5]. *)
Theorem window_one_label_per_album :
  forall (w : world) (db0 : database) (events : list event)
         (st : state) (t : list effect),
    program w db0 events = (Return st, t) ->
    fst (fetch_albums (current_user_recently_played w))
    = Return (albums (window st))
    /\ List.length (album_labels (window st)) = List.length (albums (window st))
    /\ (forall k u,
          nth_error (albums (window st)) k = Some u ->
          exists p t',
            get_pixmap (decodable w) (requests_get w k) u = (Return p, t')
            /\ nth_error (album_labels (window st)) k = Some p)
    /\ (honours_limit (current_user_recently_played w) 5 ->
        (List.length (album_labels (window st)) <= 5)%nat).
Proof.
  intros w db0 events st t Hrun.
  apply program_Return in Hrun
    as (urls & labels & t1 & t2 & t3 & Hurls & Hlabels & _ & _ & -> & -> & _).
  destruct (load_covers_Return _ _ _ _ _ Hlabels) as (Hlen & Hnth & _).
  rewrite Hurls. repeat split; auto.
  intros Hlim. rewrite Hlen. eapply fetch_albums_Return_length; eassumption.
Qed.

Lemma window_one_label_per_album_witness :
  exists st t,
    program second_cover_times_out (mkDatabase None) short_session
    = (Return st, t)
    /\ album_labels (window st) = [Pixmap []; NullPixmap]
    /\ List.length (album_labels (window st)) = List.length (albums (window st)).
Proof.
  eexists _, _. split; [reflexivity |]. split; [reflexivity |].
  exact (proj1 (proj2 (window_one_label_per_album second_cover_times_out
                         (mkDatabase None) short_session _ _ eq_refl))).
Defined.



(** X8.  The remote calls of a run that ends are, in order: the one
    recently-played query with [limit=5], one [requests.get] per album
    URL, and one [current_playback] per timer tick.  Clicks and the voice
    thread make no remote call, and the covers are never fetched again. *)
Theorem remote_calls_of_a_run :
  forall (w : world) (db0 : database) (events : list event)
         (st : state) (t : list effect),
    program w db0 events = (Return st, t) ->
    remote_calls t
    = RecentlyPlayed 5
      :: map HttpGet (albums (window st))
      ++ repeat CurrentPlayback (ticks events).
Proof.
  intros w db0 events st t Hrun.
  apply program_Return in Hrun
    as (urls & labels & t1 & t2 & t3 & Hurls & Hlabels & -> & _ & -> & _ & Hc & _).
  destruct (load_covers_Return _ _ _ _ _ Hlabels) as (_ & _ & Hcovers & _).
  pose proof (fetch_albums_trace (current_user_recently_played w)) as Hf.
  rewrite Hurls in Hf. simpl in Hf.
  rewrite !remote_calls_app, Hf, Hcovers, Hc. reflexivity.
Qed.

Lemma remote_calls_of_a_run_witness :
  exists st t,
    program second_cover_times_out (mkDatabase None)
      (SettingsClicked :: short_session) = (Return st, t)
    /\ remote_calls t
       = [RecentlyPlayed 5;
          HttpGet (JStr "https://i.scdn.co/image/a");
          HttpGet (JStr "https://i.scdn.co/image/b");
          CurrentPlayback].
Proof.
  eexists _, _. split; [reflexivity |].
  exact (remote_calls_of_a_run second_cover_times_out (mkDatabase None)
           (SettingsClicked :: short_session) _ _ eq_refl).
Defined.

(** X10.  After a run the [songs] table exists and holds the rows the
    database had before; a second run on the database the first one left,
    in whatever world and with whatever events, leaves it unchanged:
    [CREATE TABLE IF NOT EXISTS] never empties the table. *)
Theorem restart_keeps_songs_table :
  forall (w1 w2 : world) (db0 : database) (events1 events2 : list event)
         (st1 st2 : state) (t1 t2 : list effect),
    program w1 db0 events1 = (Return st1, t1) ->
    program w2 (db st1) events2 = (Return st2, t2) ->
    songs (db st1) = Some (songs_rows db0) /\ db st2 = db st1.
Proof.
  intros w1 w2 db0 events1 events2 st1 st2 t1 t2 Hrun1 Hrun2.
  apply program_Return in Hrun1 as (? & ? & ? & ? & ? & _ & _ & _ & Hdb1 & _).
  apply program_Return in Hrun2 as (? & ? & ? & ? & ? & _ & _ & _ & Hdb2 & _).
  rewrite Hdb2, Hdb1. destruct db0 as [[rows |]]; split; reflexivity.
Qed.

Lemma restart_keeps_songs_table_witness :
  exists st1 t1 st2 t2,
    program no_recent_plays once_stored short_session = (Return st1, t1)
    /\ program second_cover_times_out (db st1) [] = (Return st2, t2)
    /\ songs (db st2) = songs once_stored.
Proof.
  eexists _, _, _, _. split; [reflexivity |]. split; [reflexivity |].
  exact (f_equal songs
           (proj2 (restart_keeps_songs_table no_recent_plays
                     second_cover_times_out once_stored short_session []
                     _ _ _ _ eq_refl eq_refl))).
Defined.

(** X12.  Starting while the recently-played query fails with an
    instance of [Exception].  The window is still built, with an empty
    album slider, after the one query and one log record.  In a run that
    ends, the slider is still empty, the failure was logged exactly once,
    no cover was requested and the query was not made again: the only
    further remote calls are the playback polls of the timer. *)
Theorem start_without_recent_plays :
  forall (w : world) (e : exn),
    current_user_recently_played w 5 = Raise e ->
    isinstance e Exception = true ->
    MusicApp_init w
    = (Return (mkMusicApp [] [] true Started),
       [Remote (RecentlyPlayed 5);
        LogError [Lit "Error fetching albums: "; Exc e]])
    /\ (forall (db0 : database) (events : list event)
               (st : state) (t : list effect),
          program w db0 events = (Return st, t) ->
          albums (window st) = []
          /\ album_labels (window st) = []
          /\ filter is_albums_log t
             = [LogError [Lit "Error fetching albums: "; Exc e]]
          /\ remote_calls t
             = RecentlyPlayed 5 :: repeat CurrentPlayback (ticks events)).
Proof.
  intros w e Hquery Hcls.
  assert (Hfetch : fetch_albums (current_user_recently_played w)
                   = (Return [],
                      [Remote (RecentlyPlayed 5);
                       LogError [Lit "Error fetching albums: "; Exc e]])).
  { rewrite fetch_albums_cases. unfold recent_covers. rewrite Hquery. simpl.
    now rewrite Hcls. }
  split.
  - unfold MusicApp_init. rewrite Hfetch. reflexivity.
  - intros db0 events st t Hrun.
    apply program_Return in Hrun
      as (urls & labels & t1 & t2 & t3 & Hurls & Hlabels & -> & _ & -> & -> & Hc & Hl).
    rewrite Hfetch in Hurls. injection Hurls as Hu Ht1. subst urls t1.
    injection Hlabels as Hlab Ht2. subst labels t2.
    rewrite app_nil_r, filter_app, remote_calls_app, Hc, Hl.
    repeat split.
Qed.

Lemma start_without_recent_plays_witness :
  exists st t,
    program spotify_unreachable (mkDatabase None) short_session = (Return st, t)
    /\ albums (window st) = []
    /\ remote_calls t = [RecentlyPlayed 5; CurrentPlayback].
Proof.
  eexists _, _. split; [reflexivity |].
  destruct (proj2 (start_without_recent_plays spotify_unreachable _
                     eq_refl eq_refl)
              (mkDatabase None) short_session _ _ eq_refl)
    as (Halbums & _ & _ & Hcalls).
  split; [exact Halbums | exact Hcalls].
Defined.
